(** * The SPDX header checker of atium-lang

    A shallow embedding of [.github/workflows/check_spdx_identifiers.py]:
    the function [check] walks a directory tree, skips directories and
    ignored paths, reads the first line of every remaining file (the second
    one after a shebang) and reports the files whose line lacks the marker
    ["SPDX-License-Identifier: "].

    The script talks to its environment through [pathlib], [open] and
    [print].  The environment is a [World]; the local counter, the text
    written to standard output and a log of the files handed to [open] are
    threaded through a small state-and-exception monad. *)

From Stdlib Require Import Bool Arith List Ascii String ZArith Lia Permutation.
Import ListNotations.
Local Open Scope string_scope.
Local Open Scope list_scope.

(** ** Strings as Python uses them *)

Definition newline : ascii := "010"%char.
Definition dquote : string := String "034"%char EmptyString.

(** [s.startswith(p)]. *)
Definition startswith (s p : string) : bool := String.prefix p s.

(** [needle in hay] on two [str] values: some suffix of [hay] starts with
    [needle]. *)
Fixpoint str_in (needle hay : string) : bool :=
  if String.prefix needle hay then true
  else match hay with
       | EmptyString => false
       | String _ hay' => str_in needle hay'
       end.

(** [x in t] for a tuple of strings [t]. *)
Fixpoint tuple_in (x : string) (t : list string) : bool :=
  match t with
  | [] => false
  | y :: t' => if String.eqb x y then true else tuple_in x t'
  end.

(** ** Paths *)

(** A [pathlib.Path] is known to the script through its [parts]. *)
Record Path := mkPath { parts : list string }.

(** [str(path)] of a POSIX path: the parts joined by ["/"], the root,
    which is ["/"] or ["//"], not being followed by a separator. *)
Definition path_str (p : Path) : string :=
  match parts p with
  | [] => "."
  | r :: rest =>
      if String.eqb r "/" || String.eqb r "//" then r ++ String.concat "/" rest
      else String.concat "/" (r :: rest)
  end.

(** ** Exceptions, files and the file system *)

Inductive exn : Type :=
| PermissionError
| FileNotFoundError
| IsADirectoryError
| UnicodeDecodeError
| OSError.

(** A file opened in text mode: the decoded text the reader still
    delivers, line ends already translated to the newline character, and
    the exception it raises once this text is used up, if any.  The reader
    decodes a block at a time, so that an undecodable byte ends the text
    where its block starts, not where the byte stands. *)
Record file := mkFile { text : string; fault : option exn }.

(** The first line of [s] with its newline, and what follows it; [None]
    when [s] holds no newline. *)
Fixpoint take_line (s : string) : option (string * string) :=
  match s with
  | EmptyString => None
  | String c s' =>
      if Ascii.eqb c newline then Some (String c EmptyString, s')
      else match take_line s' with
           | Some (l, r) => Some (String c l, r)
           | None => None
           end
  end.

(** [f.readline()]: the text up to and including the next newline; at the
    end of a file without fault the rest of the text, which is [""] once
    everything is read. *)
Definition readline (f : file) : exn + (string * file) :=
  match take_line (text f) with
  | Some (l, r) => inr (l, mkFile r (fault f))
  | None =>
      match fault f with
      | Some e => inl e
      | None => inr (text f, mkFile EmptyString None)
      end
  end.

(** What iterating over [root.rglob("*")] does: it yields paths one by one
    and may raise instead of yielding.  The loop asks [path.is_dir()] as
    soon as a path is handed over, before anything else happens; a run in
    which that call raises is the run of a walk that is [Broken] at this
    path. *)
Inductive walk : Type :=
| Exhausted
| Yield (path : Path) (rest : walk)
| Broken (e : exn).

Record World := mkWorld {
  rglob : Path -> walk;            (* root.rglob("*") *)
  is_dir : Path -> bool;           (* path.is_dir(), when it answers *)
  open_r : Path -> exn + file;     (* open(path, "r") *)
  cwd : Path                       (* Path.cwd() *)
}.

(** ** State and exceptions *)

Record state := mkState {
  problems_found : nat;            (* the local variable of [check] *)
  stdout : list string;            (* one entry per call of [print] *)
  opened : list Path               (* the paths handed to [open] *)
}.

Inductive outcome (A : Type) : Type :=
| Return (a : A)
| Raise (e : exn).
Arguments Return {A} a.
Arguments Raise {A} e.

Definition M (A : Type) : Type := state -> outcome A * state.

Definition ret {A} (a : A) : M A := fun st => (Return a, st).

Definition raise {A} (e : exn) : M A := fun st => (Raise e, st).

Definition bind {A B} (m : M A) (k : A -> M B) : M B :=
  fun st =>
    match m st with
    | (Return a, st') => k a st'
    | (Raise e, st') => (Raise e, st')
    end.

Notation "x <- m ;; k" := (bind m (fun x => k))
  (at level 61, m at next level, right associativity).
Notation "m ;; k" := (bind m (fun _ => k))
  (at level 61, right associativity).

Definition get_problems_found : M nat :=
  fun st => (Return (problems_found st), st).

Definition set_problems_found (n : nat) : M unit :=
  fun st => (Return tt, mkState n (stdout st) (opened st)).

Definition print (s : string) : M unit :=
  fun st => (Return tt, mkState (problems_found st) (stdout st ++ [s]) (opened st)).

Definition lift {A} (r : exn + A) : M A :=
  match r with
  | inl e => raise e
  | inr a => ret a
  end.

(** [with open(path, "r") as f: body]. *)
Definition with_open {A} (w : World) (path : Path) (body : file -> exn + A) : M A :=
  fun st =>
    let st' := mkState (problems_found st) (stdout st) (opened st ++ [path]) in
    match open_r w path with
    | inl e => (Raise e, st')
    | inr f => lift (body f) st'
    end.

(** [for path in it: body]. *)
Fixpoint for_each (it : walk) (body : Path -> M unit) : M unit :=
  match it with
  | Exhausted => ret tt
  | Yield path rest => body path ;; for_each rest body
  | Broken e => raise e
  end.

(** ** The script *)

Definition SPDX_IDENT : string := "SPDX-License-Identifier: ".

Definition ignored : list string :=
  [".git"; ".gitmodules"; ".gitignore";
   "LICENSE";
   "zig-out"; ".zig-cache";
   "third-party"].

(** The header, an f-string around the marker. *)
Definition header : string :=
  "Files found without " ++ dquote ++ SPDX_IDENT ++ dquote ++ " in the first line:".

(** The inner loop that sets [skip]: it stops at the first token found
    among the parts of the path. *)
Fixpoint skip_loop (tokens : list string) (path : Path) : bool :=
  match tokens with
  | [] => false
  | ignored_str :: tokens' =>
      if tuple_in ignored_str (parts path) then true
      else skip_loop tokens' path
  end.

(** The body of the [with] block: the line that is tested.  It only reads
    from the file. *)
Definition read_first_line (f : file) : exn + string :=
  match readline f with
  | inl e => inl e
  | inr (first_line, f1) =>
      if startswith first_line "#!" then  (* skip shebang *)
        match readline f1 with
        | inl e => inl e
        | inr (first_line', _) => inr first_line'
        end
      else inr first_line
  end.

(** One turn of the outer loop. *)
Definition check_body (w : World) (path : Path) : M unit :=
  if is_dir w path then ret tt
  else if skip_loop ignored path then ret tt
  else
    first_line <- with_open w path read_first_line ;;
    if negb (str_in SPDX_IDENT first_line) then
      n <- get_problems_found ;;
      (if Nat.eqb n 0 then print header else ret tt) ;;
      set_problems_found (n + 1) ;;
      print (path_str path)
    else ret tt.

Definition check (w : World) (root : Path) : M bool :=
  set_problems_found 0 ;;
  for_each (rglob w root) (check_body w) ;;
  n <- get_problems_found ;;
  ret (negb (Nat.eqb n 0)).

(** How the process ends. *)
Inductive termination : Type :=
| Exit (code : Z)                  (* [sys.exit] with this status *)
| Uncaught (e : exn).              (* an exception reached the top level *)

(** The state in which the process starts. *)
Definition boot : state := mkState 0 [] [].

(** [sys.exit(check(Path.cwd()))]: a [bool] is an [int], [True] is [1]
    and [False] is [0]. *)
Definition main (w : World) : termination * state :=
  match check w (cwd w) boot with
  | (Return b, st) => (Exit (Z.b2z b), st)
  | (Raise e, st) => (Uncaught e, st)
  end.

(** ** Notions used in the statements *)

(** The marker occurs somewhere in [line]. *)
Definition contains_marker (line : string) : Prop :=
  exists a b, line = (a ++ SPDX_IDENT ++ b)%string.

(** [line] starts with the two characters of a shebang. *)
Definition shebang (line : string) : Prop :=
  exists x, line = ("#!" ++ x)%string.

Definition has_newline (s : string) : Prop :=
  exists a b, s = (a ++ String newline b)%string.

(** Some ignore token is equal to a whole segment of the path. *)
Definition segment_ignored (p : Path) : Prop :=
  exists token, In token ignored /\ In token (parts p).

(** [line_of f l f']: [l] is the next line of [f] and [f'] is what
    remains.  A line is closed by its newline; the last line of a file
    that ends without fault may lack it. *)
Inductive line_of (f : file) : string -> file -> Prop :=
| line_closed body rest :
    ~ has_newline body ->
    text f = (body ++ String newline rest)%string ->
    line_of f (body ++ String newline EmptyString)%string (mkFile rest (fault f))
| line_last :
    ~ has_newline (text f) ->
    fault f = None ->
    line_of f (text f) (mkFile EmptyString None).

(** [tested f t]: [t] is the line under test of [f], its first line, or
    its second line when the first one is a shebang. *)
Inductive tested (f : file) (t : string) : Prop :=
| tested_first f1 :
    line_of f t f1 -> ~ shebang t -> tested f t
| tested_second l1 f1 f2 :
    line_of f l1 f1 -> shebang l1 -> line_of f1 t f2 -> tested f t.

(** A checkable file: not a directory and not ignored. *)
Definition Checkable (w : World) (p : Path) : Prop :=
  is_dir w p = false /\ ~ segment_ignored p.

(** A checkable file whose line under test lacks the marker. *)
Definition Violation (w : World) (p : Path) : Prop :=
  Checkable w p /\
  exists f t, open_r w p = inr f /\ tested f t /\ ~ contains_marker t.

(** A checkable file whose line under test holds the marker. *)
Definition Passes (w : World) (p : Path) : Prop :=
  Checkable w p /\
  exists f t, open_r w p = inr f /\ tested f t /\ contains_marker t.

(** A checkable file that cannot be opened, or whose line under test
    cannot be read. *)
Definition Unreadable (w : World) (p : Path) (e : exn) : Prop :=
  Checkable w p /\
  (open_r w p = inl e \/
   exists f, open_r w p = inr f /\ read_first_line f = inl e).

(** The paths an iteration yields, and the exception it ends with, if it
    raises. *)
Fixpoint yielded (it : walk) : list Path :=
  match it with
  | Exhausted => []
  | Yield p rest => p :: yielded rest
  | Broken _ => []
  end.

Fixpoint breaks (it : walk) : option exn :=
  match it with
  | Exhausted => None
  | Yield _ rest => breaks rest
  | Broken e => Some e
  end.

Definition completes (it : walk) : Prop := breaks it = None.

(** The same notions as the script computes them. *)
Definition checkable (w : World) (p : Path) : bool :=
  negb (is_dir w p) && negb (skip_loop ignored p).

Definition line_under_test (w : World) (p : Path) : exn + string :=
  match open_r w p with
  | inl e => inl e
  | inr f => read_first_line f
  end.

Definition violates (w : World) (p : Path) : bool :=
  checkable w p &&
  match line_under_test w p with
  | inl _ => false
  | inr l => negb (str_in SPDX_IDENT l)
  end.

Definition raises (w : World) (p : Path) : option exn :=
  if checkable w p then
    match line_under_test w p with
    | inl e => Some e
    | inr _ => None
    end
  else None.

(** The paths the loop gets to, the last one being the file that makes
    the run abort, if there is one; and the exception that ends the loop. *)
Fixpoint visited (w : World) (it : walk) : list Path :=
  match it with
  | Exhausted => []
  | Yield p rest =>
      p :: match raises w p with
           | Some _ => []
           | None => visited w rest
           end
  | Broken _ => []
  end.

Fixpoint abort (w : World) (it : walk) : option exn :=
  match it with
  | Exhausted => None
  | Yield p rest =>
      match raises w p with
      | Some e => Some e
      | None => abort w rest
      end
  | Broken e => Some e
  end.

(** The state after a file was opened and let through. *)
Definition log_open (p : Path) (st : state) : state :=
  mkState (problems_found st) (stdout st) (opened st ++ [p]).

(** The state after a file was opened and found in violation: the header
    goes out first if nothing was counted before. *)
Definition flag (p : Path) (st : state) : state :=
  mkState (problems_found st + 1)
          (stdout st
           ++ (if Nat.eqb (problems_found st) 0 then [header] else [])
           ++ [path_str p])
          (opened st ++ [p]).

(** What a whole run prints for the violations [vs]. *)
Definition report (vs : list Path) : list string :=
  match vs with
  | [] => []
  | _ :: _ => header :: map path_str vs
  end.

(** The state after a stretch of the loop that found the violations [vs]
    and opened the files [os]. *)
Definition after (vs os : list Path) (st : state) : state :=
  mkState (problems_found st + List.length vs)
          (stdout st
           ++ match vs with
              | [] => []
              | _ :: _ => if Nat.eqb (problems_found st) 0 then [header] else []
              end
           ++ map path_str vs)
          (opened st ++ os).

(** ** Sample trees *)

Module Demo.

Definition nl : string := String newline EmptyString.

Definition root : Path := mkPath ["/"; "repo"].

Definition under (r : Path) (names : list string) : Path :=
  mkPath (parts r ++ names).

Definition name (p : Path) : string := last (parts p) EmptyString.

Definition a_py : Path := under root ["a.py"].
Definition b_py : Path := under root ["b.py"].
Definition git : Path := under root [".git"].
Definition git_config : Path := under root [".git"; "config"].
Definition c_sh : Path := under root ["c.sh"].
Definition d_py : Path := under root ["d.py"].
Definition run_sh : Path := under root ["tools"; "run.sh"].
Definition locked : Path := under root ["locked.txt"].
Definition big_txt : Path := under root ["big.txt"].

(** What [open] gives for a file of a given name. *)
Definition files (p : Path) : exn + file :=
  let n := name p in
  if String.eqb n "a.py" then
    inr (mkFile ("# SPDX-License-Identifier: MIT" ++ nl ++ "print(1)" ++ nl) None)
  else if String.eqb n "b.py" then
    inr (mkFile ("# no license here" ++ nl) None)
  else if String.eqb n "c.sh" then
    inr (mkFile ("#!/bin/sh" ++ nl ++ "# SPDX-License-Identifier: MIT" ++ nl) None)
  else if String.eqb n "d.py" then
    inr (mkFile EmptyString None)
  else if String.eqb n "run.sh" then
    inr (mkFile ("#!/bin/sh # SPDX-License-Identifier: MIT" ++ nl) None)
  else if String.eqb n "config" then
    inr (mkFile ("[core]" ++ nl) None)
  else if String.eqb n "big.txt" then
    inr (mkFile "SPDX-License" (Some UnicodeDecodeError))
  else if String.eqb n "locked.txt" then inl PermissionError
  else if String.eqb n ".git" then inl IsADirectoryError
  else inl FileNotFoundError.

Definition dirs (p : Path) : bool :=
  String.eqb (name p) ".git" || String.eqb (name p) "tools".

Fixpoint walk_of (ps : list Path) : walk :=
  match ps with
  | [] => Exhausted
  | p :: ps' => Yield p (walk_of ps')
  end.

(** A tree with passing files, violations, a directory and an ignored
    file. *)
Definition tree : World :=
  mkWorld (fun _ => walk_of [a_py; git; git_config; b_py; c_sh; d_py; run_sh])
          dirs files root.

(** A tree in which every checkable file passes. *)
Definition clean : World :=
  mkWorld (fun _ => walk_of [a_py; git; git_config; c_sh]) dirs files root.

(** A tree with a file that cannot be opened after a first violation. *)
Definition faulty : World :=
  mkWorld (fun _ => walk_of [b_py; locked; d_py]) dirs files root.

(** A checkout below a directory called [third-party]. *)
Definition vendor_root : Path := mkPath ["/"; "home"; "dev"; "third-party"; "atium"].

Definition vendored : World :=
  mkWorld (fun r => walk_of [under r ["b.py"]; under r ["d.py"]; under r ["locked.txt"]])
          dirs files vendor_root.

End Demo.

(** ** More sample trees *)

Module Samples.

(** The files of [Demo], except that [config] cannot be opened. *)
Definition files_locked_config (p : Path) : exn + file :=
  if String.eqb (Demo.name p) "config" then inl PermissionError
  else Demo.files p.

(** The tree of [Demo.tree] with an unreadable file below [.git]. *)
Definition tree_locked_config : World :=
  mkWorld (rglob Demo.tree) Demo.dirs files_locked_config Demo.root.

(** The tree of [Demo.tree] listed the other way round. *)
Definition tree_reversed : World :=
  mkWorld (fun _ => Demo.walk_of
             [Demo.run_sh; Demo.d_py; Demo.c_sh; Demo.b_py;
              Demo.git_config; Demo.git; Demo.a_py])
          Demo.dirs Demo.files Demo.root.

(** A file deep below a build directory. *)
Definition cached : Path :=
  Demo.under Demo.root ["zig-out"; "bin"; "tool"; "b.py"].

End Samples.

(** ** Failing reads and the exit status *)





Module Roots.



(** Files whose reading fails: one with an undecodable first line, one
    with a shebang and an undecodable second line. *)
Definition bad_txt : Path := Demo.under Demo.root ["bad.txt"].

Definition files (p : Path) : exn + file :=
  if String.eqb (Demo.name p) "bad.txt" then
    inr (mkFile "# SPDX-Lic" (Some UnicodeDecodeError))
  else if String.eqb (Demo.name p) "bad.sh" then
    inr (mkFile ("#!/bin/sh" ++ Demo.nl ++ "# SPDX") (Some OSError))
  else Demo.files p.

(** A tree in which a violation is followed by a file that opens and
    cannot be read. *)
Definition undecodable : World :=
  mkWorld (fun _ => Demo.walk_of [Demo.b_py; bad_txt; Demo.d_py])
          Demo.dirs files Demo.root.


End Roots.

(** ** Strings *)

Section Strings.

Lemma prefix_iff (p s : string) :
  String.prefix p s = true <-> exists t, s = (p ++ t)%string.
Proof.
  revert s; induction p as [|a p IH]; intros s.
  - destruct s; simpl; split; eauto.
  - destruct s as [|b s]; simpl.
    + split; [discriminate | intros [t Ht]; discriminate].
    + destruct (ascii_dec a b) as [->|Hab].
      * rewrite IH. split; intros [t Ht]; exists t; congruence.
      * split; [discriminate | intros [t Ht]; congruence].
Qed.

Lemma startswith_shebang (l : string) :
  startswith l "#!" = true <-> shebang l.
Proof. unfold startswith, shebang. apply prefix_iff. Qed.

Lemma str_in_unfold (needle hay : string) :
  str_in needle hay =
  if String.prefix needle hay then true
  else match hay with
       | EmptyString => false
       | String _ hay' => str_in needle hay'
       end.
Proof. destruct hay; reflexivity. Qed.

Lemma str_in_iff (needle hay : string) :
  str_in needle hay = true <->
  exists a b, hay = (a ++ needle ++ b)%string.
Proof.
  split.
  - induction hay as [|c hay IH]; rewrite str_in_unfold;
      destruct (String.prefix needle _) eqn:Hp.
    + apply prefix_iff in Hp as [t Ht]. intros _. now exists EmptyString, t.
    + discriminate.
    + apply prefix_iff in Hp as [t Ht]. intros _. now exists EmptyString, t.
    + intros H. destruct (IH H) as (a & b & ->). now exists (String c a), b.
  - intros (a & b & ->). induction a as [|c a IH]; rewrite str_in_unfold.
    + replace (String.prefix needle ("" ++ needle ++ b)) with true; [reflexivity|].
      symmetry. apply prefix_iff. now exists b.
    + simpl.
      match goal with |- (if ?c then _ else _) = _ => destruct c end;
        [reflexivity | exact IH].
Qed.

Lemma str_in_marker (line : string) :
  str_in SPDX_IDENT line = true <-> contains_marker line.
Proof. apply str_in_iff. Qed.

Lemma tuple_in_iff (x : string) (t : list string) :
  tuple_in x t = true <-> In x t.
Proof.
  induction t as [|y t IH]; simpl.
  - split; [discriminate | tauto].
  - destruct (String.eqb_spec x y) as [->|Hxy].
    + tauto.
    + rewrite IH. split; [tauto | intros [H|H]; congruence].
Qed.

End Strings.

(** ** Reading lines *)

Section Lines.

Lemma has_newline_cons (c : ascii) (s : string) :
  has_newline (String c s) <-> c = newline \/ has_newline s.
Proof.
  split.
  - intros (a & b & H). destruct a as [|x a]; simpl in H.
    + left. congruence.
    + right. exists a, b. congruence.
  - intros [->|(a & b & ->)].
    + now exists EmptyString, s.
    + now exists (String c a), b.
Qed.

Lemma no_newline_empty : ~ has_newline EmptyString.
Proof. intros (a & b & H). destruct a; discriminate. Qed.

Lemma take_line_no_newline (s : string) :
  ~ has_newline s -> take_line s = None.
Proof.
  induction s as [|c s IH]; simpl; intros H; [reflexivity|].
  rewrite has_newline_cons in H.
  destruct (Ascii.eqb_spec c newline) as [Hc|Hc]; [tauto|].
  rewrite IH; tauto.
Qed.

Lemma take_line_has_newline (s : string) :
  has_newline s -> take_line s <> None.
Proof.
  intros (a & b & ->). induction a as [|c a IH]; simpl.
  - discriminate.
  - destruct (Ascii.eqb c newline); [discriminate|].
    destruct (take_line _) as [[l r]|]; [discriminate | contradiction].
Qed.

Lemma take_line_none (s : string) :
  take_line s = None <-> ~ has_newline s.
Proof.
  split.
  - intros H Hn. now apply take_line_has_newline in Hn.
  - apply take_line_no_newline.
Qed.

Lemma take_line_closed (body rest : string) :
  ~ has_newline body ->
  take_line (body ++ String newline rest) =
  Some ((body ++ String newline EmptyString)%string, rest).
Proof.
  induction body as [|c body IH]; simpl; intros H.
  - reflexivity.
  - rewrite has_newline_cons in H.
    destruct (Ascii.eqb_spec c newline) as [Hc|Hc]; [tauto|].
    rewrite IH; tauto.
Qed.

Lemma take_line_some (s l r : string) :
  take_line s = Some (l, r) ->
  exists body,
    ~ has_newline body /\
    l = (body ++ String newline EmptyString)%string /\
    s = (body ++ String newline r)%string.
Proof.
  revert l r; induction s as [|c s IH]; simpl; intros l r H; [discriminate|].
  destruct (Ascii.eqb_spec c newline) as [->|Hc].
  - inversion H; subst. exists EmptyString.
    split; [apply no_newline_empty | split; reflexivity].
  - destruct (take_line s) as [[l' r']|]; [|discriminate].
    inversion H; subst.
    destruct (IH l' r eq_refl) as (body & Hb & -> & ->).
    exists (String c body). rewrite has_newline_cons.
    split; [tauto | split; reflexivity].
Qed.

(** [readline] returns exactly the next line. *)
Lemma readline_iff (f : file) (l : string) (f' : file) :
  readline f = inr (l, f') <-> line_of f l f'.
Proof.
  unfold readline. split.
  - destruct (take_line (text f)) as [[l0 r0]|] eqn:Ht.
    + intros H; inversion H; subst.
      apply take_line_some in Ht as (body & Hb & -> & Hs).
      now apply line_closed.
    + apply take_line_none in Ht.
      destruct (fault f) eqn:Hf; [discriminate|].
      intros H; inversion H; subst. now apply line_last.
  - intros [body rest Hb Hs | Hn Hf].
    + now rewrite Hs, take_line_closed.
    + apply take_line_none in Hn. now rewrite Hn, Hf.
Qed.


(** The [with] block computes the line under test. *)
Lemma read_first_line_iff (f : file) (t : string) :
  read_first_line f = inr t <-> tested f t.
Proof.
  unfold read_first_line. split.
  - destruct (readline f) as [e|[l1 f1]] eqn:H1; [discriminate|].
    apply readline_iff in H1.
    destruct (startswith l1 "#!") eqn:Hs.
    + apply startswith_shebang in Hs.
      destruct (readline f1) as [e|[l2 f2]] eqn:H2; [discriminate|].
      apply readline_iff in H2.
      intros H; inversion H; subst. eapply tested_second; eassumption.
    + intros H; inversion H; subst. eapply tested_first; [eassumption|].
      intros Hsh. apply startswith_shebang in Hsh. congruence.
  - intros [f1 H1 Hs | l1 f1 f2 H1 Hs H2].
    + apply readline_iff in H1. rewrite H1.
      destruct (startswith t "#!") eqn:E; [|reflexivity].
      apply startswith_shebang in E. contradiction.
    + apply readline_iff in H1. apply readline_iff in H2.
      apply startswith_shebang in Hs. now rewrite H1, Hs, H2.
Qed.

End Lines.

(** ** One turn of the loop *)

Section Turn.

Variable w : World.

Lemma skip_loop_iff (tokens : list string) (p : Path) :
  skip_loop tokens p = true <->
  exists token, In token tokens /\ In token (parts p).
Proof.
  induction tokens as [|t tokens IH]; simpl.
  - split; [discriminate | intros (x & [] & _)].
  - destruct (tuple_in t (parts p)) eqn:Ht.
    + apply tuple_in_iff in Ht. split; [|reflexivity].
      intros _. exists t. auto.
    + rewrite IH. split.
      * intros (x & Hx & Hp). exists x. auto.
      * intros (x & [<-|Hx] & Hp).
        -- apply tuple_in_iff in Hp. congruence.
        -- exists x. auto.
Qed.

Lemma skip_loop_ignored (p : Path) :
  skip_loop ignored p = true <-> segment_ignored p.
Proof. apply skip_loop_iff. Qed.

Lemma checkable_iff (p : Path) :
  checkable w p = true <-> Checkable w p.
Proof.
  unfold checkable, Checkable. rewrite andb_true_iff, !negb_true_iff.
  rewrite <- skip_loop_ignored.
  destruct (skip_loop ignored p); intuition congruence.
Qed.

Lemma violates_iff (p : Path) :
  violates w p = true <-> Violation w p.
Proof.
  unfold violates, Violation, line_under_test.
  rewrite andb_true_iff, checkable_iff. split.
  - intros [Hc H]. split; [exact Hc|].
    destruct (open_r w p) as [e|f]; [discriminate|].
    destruct (read_first_line f) as [e|t] eqn:Hr; [discriminate|].
    exists f, t. split; [reflexivity|].
    split; [now apply read_first_line_iff|].
    rewrite <- str_in_marker. now destruct (str_in SPDX_IDENT t).
  - intros [Hc (f & t & Ho & Ht & Hm)]. split; [exact Hc|].
    apply read_first_line_iff in Ht. rewrite Ho, Ht.
    rewrite <- str_in_marker in Hm. now destruct (str_in SPDX_IDENT t).
Qed.

Lemma raises_iff (p : Path) (e : exn) :
  raises w p = Some e <-> Unreadable w p e.
Proof.
  unfold raises, Unreadable, line_under_test.
  rewrite <- checkable_iff.
  destruct (checkable w p); [|split; [discriminate | intros []; discriminate]].
  destruct (open_r w p) as [e'|f].
  - split.
    + intros H; inversion H; auto.
    + intros [_ [H|(f & H & _)]]; congruence.
  - destruct (read_first_line f) as [e'|t] eqn:Hr.
    + split.
      * intros H; inversion H; subst. split; [reflexivity|]. right. eauto.
      * intros [_ [H|(f' & H & H')]]; [discriminate|]. congruence.
    + split; [discriminate|].
      intros [_ [H|(f' & H & H')]]; [discriminate|]. congruence.
Qed.

(** What one turn does, case by case. *)
Lemma check_body_eq (p : Path) (st : state) :
  check_body w p st =
  if checkable w p then
    match line_under_test w p with
    | inl e => (Raise e, log_open p st)
    | inr l =>
        if str_in SPDX_IDENT l then (Return tt, log_open p st)
        else (Return tt, flag p st)
    end
  else (Return tt, st).
Proof.
  unfold check_body, checkable, line_under_test.
  destruct (is_dir w p); [reflexivity|].
  destruct (skip_loop ignored p); [reflexivity|]. simpl.
  unfold bind at 1. unfold with_open.
  destruct (open_r w p) as [e|f]; [reflexivity|].
  destruct (read_first_line f) as [e|l]; [reflexivity|]. simpl.
  destruct (str_in SPDX_IDENT l); [reflexivity|]. simpl.
  unfold bind, get_problems_found, set_problems_found, print, ret, flag, log_open.
  simpl. destruct (problems_found st =? 0)%nat; simpl;
    now rewrite <- ?app_assoc.
Qed.

End Turn.

(** ** The whole loop *)

Section Run.

Variable w : World.

Lemma after_nil (st : state) : after [] [] st = st.
Proof.
  destruct st as [n out ops]. unfold after; simpl.
  now rewrite Nat.add_0_r, !app_nil_r.
Qed.

Lemma after_log_open (vs os : list Path) (p : Path) (st : state) :
  after vs os (log_open p st) = after vs (p :: os) st.
Proof. unfold after, log_open; simpl. now rewrite <- app_assoc. Qed.

Lemma after_flag (vs os : list Path) (p : Path) (st : state) :
  after vs os (flag p st) = after (p :: vs) (p :: os) st.
Proof.
  unfold after, flag; simpl.
  replace (Nat.eqb (problems_found st + 1) 0) with false
    by (symmetry; apply Nat.eqb_neq; lia).
  f_equal; [lia | | now rewrite <- app_assoc].
  rewrite <- !app_assoc. f_equal. f_equal. simpl.
  now destruct vs.
Qed.

(** The loop, started in any state. *)
Lemma for_each_check_body (it : walk) (st : state) :
  for_each it (check_body w) st =
  (match abort w it with
   | None => Return tt
   | Some e => Raise e
   end,
   after (filter (violates w) (visited w it))
         (filter (checkable w) (visited w it)) st).
Proof.
  revert st; induction it as [|p rest IH|e]; intros st; simpl.
  - now rewrite after_nil.
  - unfold bind. rewrite check_body_eq. unfold violates, raises.
    destruct (checkable w p); simpl.
    + destruct (line_under_test w p) as [e|l]; simpl.
      * now rewrite <- after_log_open, after_nil.
      * destruct (str_in SPDX_IDENT l); simpl; rewrite IH.
        -- now rewrite after_log_open.
        -- now rewrite after_flag.
    + now rewrite IH.
  - now rewrite after_nil.
Qed.

(** A run of [check] from the start of the process. *)
Lemma check_run (root : Path) :
  let seen := visited w (rglob w root) in
  let vs := filter (violates w) seen in
  check w root boot =
  (match abort w (rglob w root) with
   | None => Return (negb (Nat.eqb (List.length vs) 0))
   | Some e => Raise e
   end,
   mkState (List.length vs) (report vs) (filter (checkable w) seen)).
Proof.
  intros seen vs. unfold check, bind, set_problems_found. simpl.
  change (mkState 0 [] []) with boot.
  rewrite for_each_check_body. fold seen. fold vs.
  destruct (abort w (rglob w root)); unfold after, report, boot; simpl;
    destruct vs; reflexivity.
Qed.

Lemma completes_visited (it : walk) :
  abort w it = None -> visited w it = yielded it /\ completes it.
Proof.
  unfold completes.
  induction it as [|p rest IH|e]; simpl; intros H.
  - auto.
  - destruct (raises w p); [discriminate|].
    destruct (IH H) as [-> Hc]. auto.
  - discriminate.
Qed.

(** Why a loop aborts: the iteration raised, or a file could not be
    read. *)
Lemma abort_cause (it : walk) (e : exn) :
  abort w it = Some e ->
  breaks it = Some e \/ exists p, In p (yielded it) /\ Unreadable w p e.
Proof.
  induction it as [|p rest IH|e']; simpl; intros H.
  - discriminate.
  - destruct (raises w p) as [e'|] eqn:E.
    + inversion H; subst. apply raises_iff in E. right. eauto.
    + destruct (IH H) as [Hb|(q & Hq & Hu)]; [now left|]. right. eauto.
  - now left.
Qed.

Lemma abort_none (it : walk) :
  completes it ->
  (forall p e, In p (yielded it) -> ~ Unreadable w p e) ->
  abort w it = None.
Proof.
  intros Hc Hr. destruct (abort w it) as [e|] eqn:E; [|reflexivity].
  apply abort_cause in E as [Hb|(p & Hp & Hu)].
  - unfold completes in Hc. congruence.
  - now apply Hr in Hu.
Qed.


End Run.

(** ** The result of [check] *)

Section Result.

Variable w : World.

Lemma passes_not_violation (p : Path) : Passes w p -> ~ Violation w p.
Proof.
  intros [_ (f & t & Ho & Ht & Hm)] [_ (f' & t' & Ho' & Ht' & Hm')].
  rewrite Ho in Ho'. inversion Ho'; subst f'.
  apply read_first_line_iff in Ht, Ht'. congruence.
Qed.

Lemma checkable_cases (p : Path) :
  Checkable w p ->
  (exists e, Unreadable w p e) \/ Violation w p \/ Passes w p.
Proof.
  intros Hc. unfold Unreadable, Violation, Passes.
  destruct (open_r w p) as [e|f] eqn:Ho; [left; eauto|].
  destruct (read_first_line f) as [e|t] eqn:Hr; [left; eauto 6|].
  apply read_first_line_iff in Hr. right.
  destruct (str_in SPDX_IDENT t) eqn:Hm.
  - apply str_in_marker in Hm. right. eauto 6.
  - left. split; [exact Hc|]. exists f, t. rewrite <- str_in_marker.
    repeat split; auto. congruence.
Qed.

Lemma some_violates (l : list Path) :
  negb (Nat.eqb (List.length (filter (violates w) l)) 0) = true <->
  exists p, In p l /\ Violation w p.
Proof.
  split.
  - destruct (filter (violates w) l) as [|p vs] eqn:E; [discriminate|].
    intros _. exists p. rewrite <- violates_iff.
    apply filter_In. rewrite E. now left.
  - intros (p & Hp & Hv). apply violates_iff in Hv.
    assert (Hin : In p (filter (violates w) l)) by (apply filter_In; auto).
    now destruct (filter (violates w) l).
Qed.

(** A run that nothing interrupts returns whether violations were found
    among all the yielded paths. *)
Lemma check_completes (root : Path) :
  completes (rglob w root) ->
  (forall p e, In p (yielded (rglob w root)) -> ~ Unreadable w p e) ->
  let vs := filter (violates w) (yielded (rglob w root)) in
  check w root boot =
  (Return (negb (Nat.eqb (List.length vs) 0)),
   mkState (List.length vs) (report vs)
           (filter (checkable w) (yielded (rglob w root)))).
Proof.
  intros Hc Hr. pose proof (check_run w root) as Hrun. simpl in Hrun.
  pose proof (abort_none w _ Hc Hr) as Ha. rewrite Ha in Hrun.
  destruct (completes_visited w _ Ha) as [Hv _]. now rewrite Hv in Hrun.
Qed.

End Result.

(** C1: a run of [check] in which the traversal ends normally and every
    checkable file can be read returns a boolean; it is [true] if and only
    if some checkable file under the root is a violation, and [false] if
    and only if every checkable file passes the marker test. *)
Theorem check_true_iff_violation (w : World) (root : Path) :
  completes (rglob w root) ->
  (forall p e, In p (yielded (rglob w root)) -> ~ Unreadable w p e) ->
  exists b st,
    check w root boot = (Return b, st) /\
    (b = true <-> exists p, In p (yielded (rglob w root)) /\ Violation w p) /\
    (b = false <->
     forall p, In p (yielded (rglob w root)) -> Checkable w p -> Passes w p).
Proof.
  intros Hc Hr.
  eexists _, _. split; [exact (check_completes w root Hc Hr)|].
  pose proof (some_violates w (yielded (rglob w root))) as Hsome.
  split; [exact Hsome|].
  split.
  - intros Hb p Hp Hck.
    destruct (checkable_cases w p Hck) as [[e He]|[Hviol|Hpass]].
    + now apply Hr in He.
    + assert (Ht : negb (Nat.eqb (List.length
                 (filter (violates w) (yielded (rglob w root)))) 0) = true)
        by (apply Hsome; eauto).
      congruence.
    + exact Hpass.
  - intros Hall. apply not_true_is_false. intros Ht.
    apply Hsome in Ht as (p & Hp & Hviol).
    apply (passes_not_violation w p); [|exact Hviol].
    apply Hall; [exact Hp | apply Hviol].
Qed.

Lemma check_true_iff_violation_witness :
  exists b st,
    check Demo.tree Demo.root boot = (Return b, st) /\
    (b = true <->
     exists p, In p (yielded (rglob Demo.tree Demo.root)) /\ Violation Demo.tree p) /\
    (b = false <->
     forall p, In p (yielded (rglob Demo.tree Demo.root)) ->
               Checkable Demo.tree p -> Passes Demo.tree p).
Proof.
  apply (check_true_iff_violation Demo.tree Demo.root).
  - reflexivity.
  - intros p e Hp Hu. apply raises_iff in Hu.
    simpl in Hp. repeat (destruct Hp as [<-|Hp]; [vm_compute in Hu; discriminate|]).
    exact Hp.
Defined.

(** ** Single files *)

Section Files.

Variables (w : World) (p : Path) (st : state).

Lemma flag_not_log_open : flag p st <> log_open p st.
Proof. unfold flag, log_open. intros H. inversion H. lia. Qed.

(** The turn on a checkable file whose line under test is [t]. *)
Lemma check_body_tested (f : file) (t : string) :
  Checkable w p -> open_r w p = inr f -> tested f t ->
  check_body w p st =
  if str_in SPDX_IDENT t then (Return tt, log_open p st)
  else (Return tt, flag p st).
Proof.
  intros Hc Ho Ht. rewrite check_body_eq.
  apply checkable_iff in Hc. apply read_first_line_iff in Ht.
  unfold line_under_test. now rewrite Hc, Ho, Ht.
Qed.

End Files.

(** C2: for a file that is not a directory and not ignored, with [t] its
    line under test, the turn of the loop counts and prints the file if
    and only if the marker occurs nowhere in [t]; it lets the file through,
    counter and output untouched, if and only if the marker occurs in [t]. *)
Theorem violation_iff_marker_absent
    (w : World) (p : Path) (st : state) (f : file) (t : string) :
  Checkable w p -> open_r w p = inr f -> tested f t ->
  (check_body w p st = (Return tt, flag p st) <-> ~ contains_marker t) /\
  (check_body w p st = (Return tt, log_open p st) <-> contains_marker t) /\
  (Violation w p <-> ~ contains_marker t).
Proof.
  intros Hc Ho Ht. rewrite (check_body_tested w p st f t Hc Ho Ht).
  rewrite <- str_in_marker.
  pose proof (flag_not_log_open p st) as Hne.
  split; [|split].
  - destruct (str_in SPDX_IDENT t); split; intros H; congruence.
  - destruct (str_in SPDX_IDENT t); split; intros H; congruence.
  - split.
    + intros [_ (f' & t' & Ho' & Ht' & Hm)].
      rewrite Ho in Ho'. inversion Ho'; subst f'.
      apply read_first_line_iff in Ht, Ht'.
      assert (t' = t) by congruence. subst t'.
      now rewrite str_in_marker.
    + intros Hm. split; [exact Hc|]. exists f, t.
      rewrite <- str_in_marker. auto.
Qed.

Lemma violation_iff_marker_absent_witness :
  (check_body Demo.tree Demo.b_py boot = (Return tt, flag Demo.b_py boot) <->
   ~ contains_marker ("# no license here" ++ Demo.nl)) /\
  (check_body Demo.tree Demo.b_py boot = (Return tt, log_open Demo.b_py boot) <->
   contains_marker ("# no license here" ++ Demo.nl)) /\
  (Violation Demo.tree Demo.b_py <->
   ~ contains_marker ("# no license here" ++ Demo.nl)).
Proof.
  apply (violation_iff_marker_absent Demo.tree Demo.b_py boot
           (mkFile ("# no license here" ++ Demo.nl) None)).
  - apply checkable_iff. reflexivity.
  - reflexivity.
  - apply read_first_line_iff. reflexivity.
Defined.

(** C3: when the first line of a checkable file starts with a shebang,
    the line under test is the second line [t]: the file is let through
    when [t] holds the marker, and counted and printed when it does not. *)
Theorem shebang_second_line_tested
    (w : World) (p : Path) (st : state) (f f1 f2 : file) (l1 t : string) :
  Checkable w p -> open_r w p = inr f ->
  line_of f l1 f1 -> shebang l1 -> line_of f1 t f2 ->
  read_first_line f = inr t /\
  (contains_marker t -> check_body w p st = (Return tt, log_open p st)) /\
  (~ contains_marker t -> check_body w p st = (Return tt, flag p st)).
Proof.
  intros Hc Ho H1 Hs H2.
  assert (Ht : tested f t) by (eapply tested_second; eassumption).
  split; [now apply read_first_line_iff|].
  rewrite (check_body_tested w p st f t Hc Ho Ht), <- str_in_marker.
  destruct (str_in SPDX_IDENT t); split; intros H;
    try reflexivity; try discriminate.
  now contradiction H.
Qed.

Lemma shebang_second_line_tested_witness :
  read_first_line
    (mkFile ("#!/bin/sh" ++ Demo.nl ++ "# SPDX-License-Identifier: MIT" ++ Demo.nl) None)
  = inr ("# SPDX-License-Identifier: MIT" ++ Demo.nl)%string /\
  (contains_marker ("# SPDX-License-Identifier: MIT" ++ Demo.nl) ->
   check_body Demo.tree Demo.c_sh boot = (Return tt, log_open Demo.c_sh boot)) /\
  (~ contains_marker ("# SPDX-License-Identifier: MIT" ++ Demo.nl) ->
   check_body Demo.tree Demo.c_sh boot = (Return tt, flag Demo.c_sh boot)).
Proof.
  apply (shebang_second_line_tested Demo.tree Demo.c_sh boot _
           (mkFile ("# SPDX-License-Identifier: MIT" ++ Demo.nl) None)
           (mkFile EmptyString None)
           ("#!/bin/sh" ++ Demo.nl)).
  - apply checkable_iff. reflexivity.
  - reflexivity.
  - apply readline_iff. reflexivity.
  - apply startswith_shebang. reflexivity.
  - apply readline_iff. reflexivity.
Defined.

(** C4: a checkable file without any text, or with a shebang line and
    nothing after it, has the empty string as its line under test; the
    empty string does not hold the marker, and the file is counted and
    printed like any other violation. *)
Theorem empty_line_is_violation
    (w : World) (p : Path) (st : state) (f : file) :
  Checkable w p -> open_r w p = inr f -> fault f = None ->
  (text f = EmptyString \/
   exists x, ~ has_newline x /\
             (text f = ("#!" ++ x)%string \/
              text f = ("#!" ++ x ++ String newline EmptyString)%string)) ->
  read_first_line f = inr EmptyString /\
  ~ contains_marker EmptyString /\
  check_body w p st = (Return tt, flag p st) /\
  Violation w p.
Proof.
  intros Hc Ho Hf Hshape.
  assert (Hm : ~ contains_marker EmptyString)
    by (rewrite <- str_in_marker; discriminate).
  assert (Hend : line_of (mkFile EmptyString None) EmptyString
                          (mkFile EmptyString None))
    by (apply (line_last (mkFile EmptyString None));
        [apply no_newline_empty | reflexivity]).
  assert (Ht : tested f EmptyString).
  { destruct f as [txt flt]. simpl in Hf, Hshape. subst flt.
    destruct Hshape as [->|(x & Hx & [->| ->])].
    - eapply tested_first; [exact Hend|].
      intros [y Hy]. discriminate.
    - assert (Hn : ~ has_newline ("#!" ++ x)).
      { simpl. rewrite !has_newline_cons.
        intros [H|[H|H]]; try discriminate. contradiction. }
      eapply tested_second; [| |exact Hend].
      + apply (line_last (mkFile ("#!" ++ x) None)); [exact Hn | reflexivity].
      + now exists x.
    - assert (Hn : ~ has_newline ("#!" ++ x)).
      { simpl. rewrite !has_newline_cons.
        intros [H|[H|H]]; try discriminate. contradiction. }
      eapply tested_second; [| |exact Hend].
      + apply (line_closed (mkFile ("#!" ++ x ++ String newline "") None)
                 ("#!" ++ x) EmptyString Hn). reflexivity.
      + now exists (x ++ String newline "")%string. }
  assert (Hr : read_first_line f = inr EmptyString)
    by now apply read_first_line_iff.
  repeat split; try assumption.
  - now rewrite (check_body_tested w p st f _ Hc Ho Ht).
  - apply Hc.
  - apply Hc.
  - eauto.
Qed.

Lemma empty_line_is_violation_witness :
  read_first_line (mkFile EmptyString None) = inr EmptyString /\
  ~ contains_marker EmptyString /\
  check_body Demo.tree Demo.d_py boot = (Return tt, flag Demo.d_py boot) /\
  Violation Demo.tree Demo.d_py.
Proof.
  apply (empty_line_is_violation Demo.tree Demo.d_py boot (mkFile EmptyString None)).
  - apply checkable_iff. reflexivity.
  - reflexivity.
  - reflexivity.
  - left. reflexivity.
Defined.

(** ** Ignored paths *)

Section Ignored.

Variable w : World.

Lemma ignored_not_checkable (p : Path) :
  segment_ignored p -> checkable w p = false.
Proof.
  intros H. apply skip_loop_ignored in H. unfold checkable.
  rewrite H. now destruct (is_dir w p).
Qed.

Lemma opened_checkable (root p : Path) :
  In p (opened (snd (check w root boot))) -> Checkable w p.
Proof.
  pose proof (check_run w root) as Hrun. simpl in Hrun. rewrite Hrun. simpl.
  intros H. apply filter_In in H as [_ H]. now apply checkable_iff.
Qed.

(** When no yielded path is checkable the loop touches nothing. *)
Lemma nothing_checkable (it : walk) :
  (forall p, In p (yielded it) -> checkable w p = false) ->
  abort w it = breaks it /\
  filter (checkable w) (visited w it) = [] /\
  filter (violates w) (visited w it) = [].
Proof.
  induction it as [|p rest IH|e]; simpl; intros H; auto.
  assert (Hp : checkable w p = false) by auto.
  unfold raises, violates. rewrite Hp. simpl. apply IH. auto.
Qed.

End Ignored.

(** C5: a path one of whose segments is equal to an ignore token is
    skipped by the filter, and the turn of the loop leaves the state as it
    was: the file is not opened, nothing is printed and the counter does
    not move; the path is not a violation, and no run ever hands it to
    [open]. *)
Theorem ignored_segment_skipped (w : World) (root p : Path) (st : state) :
  segment_ignored p ->
  skip_loop ignored p = true /\
  check_body w p st = (Return tt, st) /\
  ~ Violation w p /\
  ~ In p (opened (snd (check w root boot))).
Proof.
  intros H.
  pose proof (ignored_not_checkable w p H) as Hc.
  split; [now apply skip_loop_ignored|].
  split; [|split].
  - now rewrite check_body_eq, Hc.
  - intros [[_ Hn] _]. contradiction.
  - intros Hin. apply opened_checkable in Hin as [_ Hn]. contradiction.
Qed.

Lemma ignored_segment_skipped_witness :
  skip_loop ignored Demo.git_config = true /\
  check_body Demo.tree Demo.git_config boot = (Return tt, boot) /\
  ~ Violation Demo.tree Demo.git_config /\
  ~ In Demo.git_config (opened (snd (check Demo.tree Demo.root boot))).
Proof.
  apply (ignored_segment_skipped Demo.tree Demo.root Demo.git_config boot).
  apply skip_loop_ignored. reflexivity.
Defined.

(** A segment that merely contains a token is not ignored: the file is
    opened and reported. *)
Example near_miss_not_skipped :
  let p := Demo.under Demo.root ["third-party-docs"; "b.py"] in
  skip_loop ignored p = false /\
  check_body Demo.tree p boot = (Return tt, flag p boot).
Proof. split; reflexivity. Qed.

(** ** What a run prints *)

Section Output.

Variable w : World.

(** The loop gets to an initial stretch of the yielded paths. *)
Lemma visited_prefix (it : walk) :
  exists rest, yielded it = visited w it ++ rest.
Proof.
  induction it as [|p it IH|e]; simpl.
  - now exists [].
  - destruct (raises w p).
    + now exists (yielded it).
    + destruct IH as [rest ->]. now exists rest.
  - now exists [].
Qed.

Lemma returns_visited_all (root : Path) (b : bool) :
  fst (check w root boot) = Return b ->
  visited w (rglob w root) = yielded (rglob w root).
Proof.
  pose proof (check_run w root) as Hrun. simpl in Hrun. rewrite Hrun. simpl.
  destruct (abort w (rglob w root)) eqn:Ha; [discriminate|].
  intros _. now apply completes_visited.
Qed.

End Output.

(** C6: in every run, also one that an exception cuts short, let [vs] be
    the violations among the paths the loop got to, in the order of the
    traversal.  If [vs] is empty nothing is printed; otherwise the output
    is the header, once and first, followed by the paths of [vs], one
    [print] each, in that order.  The counter ends at the number of
    violations, and a run that returns has gone through every yielded
    path. *)
Theorem header_once_then_paths (w : World) (root : Path) :
  let st := snd (check w root boot) in
  let seen := visited w (rglob w root) in
  let vs := filter (violates w) seen in
  (exists rest, yielded (rglob w root) = seen ++ rest) /\
  (forall b, fst (check w root boot) = Return b ->
             seen = yielded (rglob w root)) /\
  problems_found st = List.length vs /\
  (vs = [] -> stdout st = []) /\
  (vs <> [] -> stdout st = header :: map path_str vs).
Proof.
  intros st seen vs.
  split; [apply visited_prefix|].
  split; [apply returns_visited_all|].
  pose proof (check_run w root) as Hrun. simpl in Hrun.
  subst st. rewrite Hrun. simpl. fold seen. fold vs.
  split; [reflexivity|]. unfold report.
  split; intros H; destruct vs; congruence.
Qed.

Lemma header_once_then_paths_witness :
  stdout (snd (check Demo.tree Demo.root boot)) =
  [header; "/repo/b.py"; "/repo/d.py"; "/repo/tools/run.sh"].
Proof.
  destruct (header_once_then_paths Demo.tree Demo.root) as (_ & _ & _ & _ & H).
  rewrite H; [reflexivity | discriminate].
Defined.

(** ** The exit status *)

(** C7: a run on the current directory in which the traversal ends
    normally and every checkable file can be read exits through
    [sys.exit] with the result of [check] as an integer: [0] exactly when
    no file under the current directory is a violation, a nonzero status
    exactly when one is. *)
Theorem exit_code_is_result (w : World) :
  completes (rglob w (cwd w)) ->
  (forall p e, In p (yielded (rglob w (cwd w))) -> ~ Unreadable w p e) ->
  exists b st,
    check w (cwd w) boot = (Return b, st) /\
    main w = (Exit (Z.b2z b), st) /\
    (Z.b2z b = 0%Z <->
     ~ exists p, In p (yielded (rglob w (cwd w))) /\ Violation w p) /\
    (Z.b2z b <> 0%Z <->
     exists p, In p (yielded (rglob w (cwd w))) /\ Violation w p).
Proof.
  intros Hc Hr. pose proof (check_completes w (cwd w) Hc Hr) as Hrun.
  simpl in Hrun.
  pose proof (some_violates w (yielded (rglob w (cwd w)))) as Hsome.
  eexists _, _. split; [exact Hrun|].
  split; [unfold main; now rewrite Hrun|].
  destruct (negb _); simpl; split; split.
  - intros H. discriminate.
  - intros H. exfalso. apply H. now apply Hsome.
  - intros _. now apply Hsome.
  - intros _. discriminate.
  - intros _ Hex. apply Hsome in Hex. discriminate.
  - reflexivity.
  - intros H. now contradiction H.
  - intros Hex. apply Hsome in Hex. discriminate.
Qed.

Lemma exit_code_is_result_witness :
  exists b st,
    check Demo.clean (cwd Demo.clean) boot = (Return b, st) /\
    main Demo.clean = (Exit (Z.b2z b), st) /\
    (Z.b2z b = 0%Z <->
     ~ exists p, In p (yielded (rglob Demo.clean (cwd Demo.clean))) /\
                 Violation Demo.clean p) /\
    (Z.b2z b <> 0%Z <->
     exists p, In p (yielded (rglob Demo.clean (cwd Demo.clean))) /\
               Violation Demo.clean p).
Proof.
  apply (exit_code_is_result Demo.clean).
  - reflexivity.
  - intros p e Hp Hu. apply raises_iff in Hu.
    simpl in Hp. repeat (destruct Hp as [<-|Hp]; [vm_compute in Hu; discriminate|]).
    exact Hp.
Defined.

Example clean_exits_0 : fst (main Demo.clean) = Exit 0.
Proof. reflexivity. Qed.

Example tree_exits_1 : fst (main Demo.tree) = Exit 1.
Proof. reflexivity. Qed.

(** ** Errors *)

Section Errors.

Variable w : World.

Lemma unreadable_line (p : Path) (e : exn) :
  Unreadable w p e -> checkable w p = true /\ line_under_test w p = inl e.
Proof.
  intros [Hc H]. split; [now apply checkable_iff|].
  unfold line_under_test. destruct H as [->|(f & -> & Hr)]; auto.
Qed.


End Errors.






(** A file whose reading fails is not reported: the run ends with the
    exception and the report made so far. *)
Example undecodable_not_reported :
  check Roots.undecodable Demo.root boot =
  (Raise UnicodeDecodeError,
   mkState 1 [header; "/repo/b.py"] [Demo.b_py; Roots.bad_txt]).
Proof. reflexivity. Qed.

(** The output of an interrupted run stops where the exception struck:
    the violation met before the unreadable file is printed, the one after
    it is not. *)
Example faulty_partial_report :
  check Demo.faulty Demo.root boot =
  (Raise PermissionError,
   mkState 1 [header; "/repo/b.py"] [Demo.b_py; Demo.locked]).
Proof. reflexivity. Qed.

(** ** Shebang lines *)

(** C9: when the first line of a checkable file starts with a shebang
    and itself holds the marker, the line is discarded all the same: the
    verdict depends on the second line alone, and a file with nothing
    after that line is counted and printed as a violation. *)
Theorem marker_on_shebang_discarded
    (w : World) (p : Path) (st : state) (f f1 : file) (l1 : string) :
  Checkable w p -> open_r w p = inr f ->
  line_of f l1 f1 -> shebang l1 -> contains_marker l1 ->
  (forall t f2, line_of f1 t f2 ->
     read_first_line f = inr t /\
     (check_body w p st = (Return tt, flag p st) <-> ~ contains_marker t)) /\
  (text f1 = EmptyString -> fault f1 = None ->
     check_body w p st = (Return tt, flag p st) /\ Violation w p).
Proof.
  intros Hc Ho H1 Hs _. split.
  - intros t f2 H2.
    assert (Ht : tested f t) by (eapply tested_second; eassumption).
    split; [now apply read_first_line_iff|].
    rewrite (check_body_tested w p st f t Hc Ho Ht), <- str_in_marker.
    pose proof (flag_not_log_open p st) as Hne.
    destruct (str_in SPDX_IDENT t); split; intros H; congruence.
  - intros Htxt Hflt.
    assert (H2 : line_of f1 EmptyString (mkFile EmptyString None)).
    { rewrite <- Htxt at 1. apply line_last; [|exact Hflt].
      rewrite Htxt. apply no_newline_empty. }
    assert (Ht : tested f EmptyString) by (eapply tested_second; eassumption).
    assert (Hm : ~ contains_marker EmptyString)
      by (rewrite <- str_in_marker; discriminate).
    split.
    + now rewrite (check_body_tested w p st f _ Hc Ho Ht).
    + split; [exact Hc|]. eauto.
Qed.

Lemma marker_on_shebang_discarded_witness :
  contains_marker ("#!/bin/sh # SPDX-License-Identifier: MIT" ++ Demo.nl) /\
  check_body Demo.tree Demo.run_sh boot = (Return tt, flag Demo.run_sh boot) /\
  Violation Demo.tree Demo.run_sh.
Proof.
  assert (Hm : contains_marker ("#!/bin/sh # SPDX-License-Identifier: MIT" ++ Demo.nl))
    by (apply str_in_marker; reflexivity).
  split; [exact Hm|].
  apply (marker_on_shebang_discarded Demo.tree Demo.run_sh boot
           (mkFile ("#!/bin/sh # SPDX-License-Identifier: MIT" ++ Demo.nl) None)
           (mkFile EmptyString None)
           ("#!/bin/sh # SPDX-License-Identifier: MIT" ++ Demo.nl)).
  - apply checkable_iff. reflexivity.
  - reflexivity.
  - apply readline_iff. reflexivity.
  - apply startswith_shebang. reflexivity.
  - exact Hm.
  - reflexivity.
  - reflexivity.
Defined.

(** ** An ignored root *)

(** C10: the filter looks at all the parts of a yielded path, those of
    the root included.  When the yielded paths extend the parts of the
    root and one part of the root is an ignore token, no file is opened
    and nothing is printed, [check] does not return [true], and it
    returns [false] as soon as the traversal ends normally, whatever the
    files hold. *)
Theorem ignored_root_skips_everything (w : World) (root : Path) :
  segment_ignored root ->
  (forall p, In p (yielded (rglob w root)) ->
             exists rel, parts p = parts root ++ rel) ->
  (forall p, In p (yielded (rglob w root)) -> segment_ignored p) /\
  opened (snd (check w root boot)) = [] /\
  stdout (snd (check w root boot)) = [] /\
  fst (check w root boot) <> Return true /\
  (completes (rglob w root) -> check w root boot = (Return false, boot)).
Proof.
  intros (token & Htok & Hin) Hunder.
  assert (Hall : forall p, In p (yielded (rglob w root)) -> segment_ignored p).
  { intros p Hp. destruct (Hunder p Hp) as [rel Hrel].
    exists token. split; [exact Htok|]. rewrite Hrel. apply in_or_app. now left. }
  split; [exact Hall|].
  destruct (nothing_checkable w (rglob w root)) as (Ha & Ho & Hv).
  { intros p Hp. apply ignored_not_checkable. now apply Hall. }
  pose proof (check_run w root) as Hrun. simpl in Hrun.
  rewrite Ha, Ho, Hv in Hrun. rewrite Hrun. simpl.
  repeat split.
  - destruct (breaks (rglob w root)); discriminate.
  - unfold completes. now intros ->.
Qed.

Lemma ignored_root_skips_everything_witness :
  (forall p, In p (yielded (rglob Demo.vendored Demo.vendor_root)) ->
             segment_ignored p) /\
  opened (snd (check Demo.vendored Demo.vendor_root boot)) = [] /\
  stdout (snd (check Demo.vendored Demo.vendor_root boot)) = [] /\
  fst (check Demo.vendored Demo.vendor_root boot) <> Return true /\
  (completes (rglob Demo.vendored Demo.vendor_root) ->
   check Demo.vendored Demo.vendor_root boot = (Return false, boot)).
Proof.
  apply (ignored_root_skips_everything Demo.vendored Demo.vendor_root).
  - apply skip_loop_ignored. reflexivity.
  - intros p Hp. simpl in Hp.
    destruct Hp as [<-|[<-|[<-|[]]]]; eexists; reflexivity.
Defined.

(** The same files below a root without ignored part are reported. *)
Example plain_root_reports :
  fst (check Demo.vendored Demo.root boot) = Raise PermissionError /\
  stdout (snd (check Demo.vendored Demo.root boot))
  = [header; "/repo/b.py"; "/repo/d.py"].
Proof. split; reflexivity. Qed.

(** ** Further properties of the loop *)

Section Further.

Variable w : World.

(** A run of [check] started in any state. *)
Lemma check_any_state (root : Path) (st : state) :
  let seen := visited w (rglob w root) in
  let vs := filter (violates w) seen in
  check w root st =
  (match abort w (rglob w root) with
   | None => Return (negb (Nat.eqb (List.length vs) 0))
   | Some e => Raise e
   end,
   mkState (List.length vs) (stdout st ++ report vs)
           (opened st ++ filter (checkable w) seen)).
Proof.
  intros seen vs. unfold check, bind, set_problems_found.
  rewrite for_each_check_body. fold seen. fold vs.
  destruct (abort w (rglob w root)); unfold after, report; simpl;
    destruct vs; reflexivity.
Qed.


Lemma visited_in_yielded (it : walk) (p : Path) :
  In p (visited w it) -> In p (yielded it).
Proof.
  intros H. destruct (visited_prefix w it) as [rest ->].
  apply in_or_app. now left.
Qed.

(** The loop up to the first file that cannot be read. *)
Lemma visited_until_unreadable (it : walk) (pre post : list Path)
      (p : Path) (e : exn) :
  yielded it = pre ++ p :: post ->
  (forall q e', In q pre -> ~ Unreadable w q e') ->
  Unreadable w p e ->
  visited w it = pre ++ [p] /\ abort w it = Some e.
Proof.
  revert it; induction pre as [|q pre IH]; intros it Hy Hpre Hu.
  - destruct it as [|p' rest|e']; simpl in Hy; try discriminate.
    inversion Hy; subst. simpl.
    apply raises_iff in Hu. now rewrite Hu.
  - destruct it as [|q' rest|e']; simpl in Hy; try discriminate.
    inversion Hy; subst. simpl.
    destruct (raises w q) as [e'|] eqn:E.
    + apply raises_iff in E. exfalso. apply (Hpre q e'); simpl; auto.
    + destruct (IH rest H1) as [-> ->]; auto.
      intros q' e' Hq'. apply Hpre. simpl. auto.
Qed.

End Further.

(** X1: [check] sets its counter to zero when it starts.  Called in any
    state it returns what it returns at the start of a process, adds to
    the output exactly what it prints there, its own header included, and
    leaves the counter at the number of violations of this call. *)
Theorem check_resets_counter (w : World) (root : Path) (st : state) :
  check w root st =
  (fst (check w root boot),
   mkState (problems_found (snd (check w root boot)))
           (stdout st ++ stdout (snd (check w root boot)))
           (opened st ++ opened (snd (check w root boot)))).
Proof.
  pose proof (check_any_state w root st) as H. simpl in H.
  pose proof (check_any_state w root boot) as H0. simpl in H0.
  rewrite H, H0. reflexivity.
Qed.

(** X2: the outcome and the final state of [check] depend on the world
    only through the traversal, the answers of [is_dir] on the yielded
    paths and what [open] gives for the checkable ones: what directories
    and ignored files hold, and whether they can be opened at all, makes
    no difference. *)
Theorem check_blind_to_unchecked (w w' : World) (root : Path) (st : state) :
  rglob w root = rglob w' root ->
  (forall p, In p (yielded (rglob w root)) -> is_dir w p = is_dir w' p) ->
  (forall p, In p (yielded (rglob w root)) -> Checkable w p ->
             open_r w p = open_r w' p) ->
  check w root st = check w' root st.
Proof.
  intros Hg Hd Ho. unfold check, bind, set_problems_found. rewrite <- Hg.
  assert (Hloop : forall it st0,
             (forall p, In p (yielded it) -> In p (yielded (rglob w root))) ->
             for_each it (check_body w) st0 = for_each it (check_body w') st0).
  { induction it as [|p rest IH|e]; intros st0 Hin; simpl; try reflexivity.
    unfold bind.
    assert (Hb : check_body w p st0 = check_body w' p st0).
    { rewrite !check_body_eq.
      assert (Hp : In p (yielded (rglob w root))) by (apply Hin; simpl; auto).
      assert (Hc : checkable w p = checkable w' p)
        by (unfold checkable; now rewrite (Hd p Hp)).
      rewrite <- Hc. destruct (checkable w p) eqn:E; [|reflexivity].
      apply checkable_iff in E. unfold line_under_test.
      now rewrite (Ho p Hp E). }
    rewrite <- Hb. destruct (check_body w p st0) as [[[]|e] st1]; [|reflexivity].
    apply IH. intros q Hq. apply Hin. simpl. auto. }
  rewrite Hloop; [reflexivity | auto].
Qed.

Lemma check_blind_to_unchecked_witness :
  check Demo.tree Demo.root boot = check Samples.tree_locked_config Demo.root boot.
Proof.
  apply (check_blind_to_unchecked Demo.tree Samples.tree_locked_config Demo.root boot).
  - reflexivity.
  - intros p _. reflexivity.
  - intros p Hp Hc. apply checkable_iff in Hc. simpl in Hp.
    repeat (destruct Hp as [<-|Hp]; [try reflexivity; vm_compute in Hc; discriminate|]).
    contradiction.
Defined.

(** X3: no more than two lines decide.  [rest] and [flt] stand for what
    the reader goes on to deliver or to raise once the lines named here
    have been read.  When the first line is closed by a newline and is no
    shebang it is the line under test; when it is a shebang and the second
    line is closed, the second line is, be it a shebang itself.  In both
    cases [readline] is not called again: the lines that follow, with the
    marker or without, do not change the line under test. *)
Theorem reads_at_most_two_lines
    (b1 b2 rest : string) (flt : option exn) :
  ~ has_newline b1 ->
  (~ shebang (b1 ++ String newline EmptyString) ->
   read_first_line (mkFile (b1 ++ String newline rest) flt)
   = inr (b1 ++ String newline EmptyString)%string) /\
  (shebang (b1 ++ String newline EmptyString) -> ~ has_newline b2 ->
   read_first_line
     (mkFile (b1 ++ String newline (b2 ++ String newline rest)) flt)
   = inr (b2 ++ String newline EmptyString)%string).
Proof.
  intros H1. split.
  - intros Hs. apply read_first_line_iff.
    eapply tested_first; [|exact Hs].
    now apply (line_closed (mkFile (b1 ++ String newline rest) flt) b1 rest).
  - intros Hs H2. apply read_first_line_iff.
    eapply tested_second; [|exact Hs|].
    + now apply (line_closed (mkFile _ flt) b1 (b2 ++ String newline rest)).
    + now apply (line_closed (mkFile (b2 ++ String newline rest) flt) b2 rest).
Qed.

Lemma reads_at_most_two_lines_witness :
  read_first_line
    (mkFile ("# no license" ++ Demo.nl ++ "# SPDX-License-Identifier: MIT" ++ Demo.nl)
            (Some OSError))
  = inr ("# no license" ++ Demo.nl)%string /\
  read_first_line
    (mkFile ("#!/bin/sh" ++ Demo.nl ++ "#!/bin/bash" ++ Demo.nl
             ++ "# SPDX-License-Identifier: MIT" ++ Demo.nl)
            (Some OSError))
  = inr ("#!/bin/bash" ++ Demo.nl)%string.
Proof.
  split.
  - apply (reads_at_most_two_lines "# no license" EmptyString
             ("# SPDX-License-Identifier: MIT" ++ Demo.nl) (Some OSError)).
    + apply take_line_none. reflexivity.
    + intros Hs. apply startswith_shebang in Hs. discriminate.
  - apply (reads_at_most_two_lines "#!/bin/sh" "#!/bin/bash"
             ("# SPDX-License-Identifier: MIT" ++ Demo.nl) (Some OSError)).
    + apply take_line_none. reflexivity.
    + apply startswith_shebang. reflexivity.
    + apply take_line_none. reflexivity.
Defined.

(** X4: a run stops at the first checkable file that cannot be read.
    [check] raises the exception of that file; the output is the report
    of the violations met before it, the files opened are the checkable
    ones before it and the file itself, and nothing yielded after it is
    looked at. *)
Theorem first_unreadable_stops_run
    (w : World) (root : Path) (pre post : list Path) (p : Path) (e : exn) :
  yielded (rglob w root) = pre ++ p :: post ->
  (forall q e', In q pre -> ~ Unreadable w q e') ->
  Unreadable w p e ->
  let vs := filter (violates w) pre in
  check w root boot =
  (Raise e,
   mkState (List.length vs) (report vs) (filter (checkable w) pre ++ [p])).
Proof.
  intros Hy Hpre Hu vs.
  destruct (visited_until_unreadable w _ pre post p e Hy Hpre Hu) as [Hv Ha].
  pose proof (check_run w root) as Hrun. simpl in Hrun.
  rewrite Ha, Hv in Hrun. rewrite Hrun.
  destruct (unreadable_line w p e Hu) as [Hc Hl].
  assert (Hp : violates w p = false)
    by (unfold violates; rewrite Hl; apply andb_false_r).
  rewrite !filter_app. simpl. rewrite Hc, Hp.
  now rewrite app_nil_r.
Qed.

Lemma first_unreadable_stops_run_witness :
  check Demo.faulty Demo.root boot =
  (Raise PermissionError,
   mkState 1 [header; "/repo/b.py"] [Demo.b_py; Demo.locked]).
Proof.
  apply (first_unreadable_stops_run Demo.faulty Demo.root
           [Demo.b_py] [Demo.d_py] Demo.locked PermissionError).
  - reflexivity.
  - intros q e' [<-|[]] Hu. apply raises_iff in Hu. discriminate.
  - apply raises_iff. reflexivity.
Defined.



(** ** Order, provenance and size *)

Section Order.

Lemma Permutation_filter_same {A : Type} (f : A -> bool) (l l' : list A) :
  Permutation l l' -> Permutation (filter f l) (filter f l').
Proof.
  induction 1 as [|x l l' _ IH|x y l|l l' l'' _ IH1 _ IH2]; simpl.
  - constructor.
  - destruct (f x); [now constructor | exact IH].
  - destruct (f x), (f y); try apply Permutation_refl. apply perm_swap.
  - eapply Permutation_trans; eassumption.
Qed.

Lemma Permutation_report (vs vs' : list Path) :
  Permutation vs vs' -> Permutation (report vs) (report vs').
Proof.
  intros H. destruct vs as [|v vs].
  - apply Permutation_nil in H. subst. constructor.
  - destruct vs' as [|v' vs'].
    + apply Permutation_sym, Permutation_nil in H. discriminate.
    + unfold report. constructor. now apply Permutation_map.
Qed.

Variables w w' : World.
Hypothesis same_dirs : forall p, is_dir w p = is_dir w' p.
Hypothesis same_files : forall p, open_r w p = open_r w' p.

Lemma same_checkable (p : Path) : checkable w p = checkable w' p.
Proof. unfold checkable. now rewrite same_dirs. Qed.

Lemma same_line_under_test (p : Path) :
  line_under_test w p = line_under_test w' p.
Proof. unfold line_under_test. now rewrite same_files. Qed.

Lemma same_violates (p : Path) : violates w p = violates w' p.
Proof.
  unfold violates. now rewrite same_checkable, same_line_under_test.
Qed.

Lemma same_raises (p : Path) : raises w p = raises w' p.
Proof.
  unfold raises. now rewrite same_checkable, same_line_under_test.
Qed.

End Order.

(** X6: the verdict does not depend on the order in which the directory
    tree is listed.  Two traversals of the same files that yield the same
    paths in different orders, both ending normally with every checkable
    file readable, make [check] return the same boolean with the same
    count; the lines printed and the files opened are the same up to
    their order. *)
Theorem verdict_independent_of_order (w w' : World) (root root' : Path) :
  (forall p, is_dir w p = is_dir w' p) ->
  (forall p, open_r w p = open_r w' p) ->
  Permutation (yielded (rglob w root)) (yielded (rglob w' root')) ->
  completes (rglob w root) -> completes (rglob w' root') ->
  (forall p e, In p (yielded (rglob w root)) -> ~ Unreadable w p e) ->
  exists b st st',
    check w root boot = (Return b, st) /\
    check w' root' boot = (Return b, st') /\
    problems_found st = problems_found st' /\
    Permutation (stdout st) (stdout st') /\
    Permutation (opened st) (opened st').
Proof.
  intros Hd Hf Hperm Hc Hc' Hr.
  assert (Hr' : forall p e, In p (yielded (rglob w' root')) -> ~ Unreadable w' p e).
  { intros p e Hp Hu. apply raises_iff in Hu.
    rewrite <- (same_raises w w' Hd Hf) in Hu. apply raises_iff in Hu.
    apply (Hr p e); [|exact Hu].
    eapply Permutation_in; [apply Permutation_sym; exact Hperm | exact Hp]. }
  pose proof (check_completes w root Hc Hr) as H1.
  pose proof (check_completes w' root' Hc' Hr') as H2.
  simpl in H1, H2.
  rewrite <- (filter_ext _ _ (same_violates w w' Hd Hf)) in H2.
  rewrite <- (filter_ext _ _ (same_checkable w w' Hd)) in H2.
  pose proof (Permutation_filter_same (violates w) _ _ Hperm) as Hv.
  pose proof (Permutation_filter_same (checkable w) _ _ Hperm) as Ho.
  rewrite <- (Permutation_length Hv) in H2.
  eexists _, _, _. split; [exact H1|]. split; [exact H2|]. simpl.
  split; [reflexivity|]. split; [now apply Permutation_report | exact Ho].
Qed.

Lemma verdict_independent_of_order_witness :
  exists b st st',
    check Demo.tree Demo.root boot = (Return b, st) /\
    check Samples.tree_reversed Demo.root boot = (Return b, st') /\
    problems_found st = problems_found st' /\
    Permutation (stdout st) (stdout st') /\
    Permutation (opened st) (opened st').
Proof.
  apply (verdict_independent_of_order Demo.tree Samples.tree_reversed
           Demo.root Demo.root).
  - reflexivity.
  - reflexivity.
  - change (yielded (rglob Samples.tree_reversed Demo.root))
      with (rev (yielded (rglob Demo.tree Demo.root))).
    apply Permutation_rev.
  - reflexivity.
  - reflexivity.
  - intros p e Hp Hu. apply raises_iff in Hu. simpl in Hp.
    repeat (destruct Hp as [<-|Hp]; [discriminate|]). contradiction.
Defined.

(** X7: the ignore filter looks at nothing but which tokens and which
    segments there are.  A path that is skipped stays skipped when tokens
    are added, reordered or repeated and when segments are added before,
    after or between its own: every path below an ignored directory is
    skipped, at any depth. *)
Theorem skip_loop_monotone (tokens tokens' : list string) (p p' : Path) :
  incl tokens tokens' -> incl (parts p) (parts p') ->
  skip_loop tokens p = true -> skip_loop tokens' p' = true.
Proof.
  intros Ht Hp H. apply skip_loop_iff in H as (token & Hin & Hseg).
  apply skip_loop_iff. exists token. auto.
Qed.

Lemma skip_loop_monotone_witness :
  skip_loop (rev ignored) Samples.cached = true.
Proof.
  apply (skip_loop_monotone ignored (rev ignored) (mkPath ["zig-out"]) Samples.cached).
  - intros x Hx. now apply in_rev in Hx.
  - intros x [<-|[]]. simpl. auto.
  - reflexivity.
Defined.

(** X8: result and output agree.  After any run the number of printed
    lines is zero when the counter is zero and one more than the counter
    otherwise; and when [check] returns, it returns [true] exactly when
    it has printed something. *)
Theorem result_matches_output (w : World) (root : Path) :
  let st := snd (check w root boot) in
  List.length (stdout st)
  = (if Nat.eqb (problems_found st) 0 then 0 else S (problems_found st)) /\
  (forall b, fst (check w root boot) = Return b ->
             (b = true <-> stdout st <> [])).
Proof.
  pose proof (check_run w root) as Hrun. simpl in Hrun. rewrite Hrun. simpl.
  destruct (filter (violates w) (visited w (rglob w root))) as [|v vs]; simpl.
  - split; [reflexivity|]. intros b Hb.
    destruct (abort w (rglob w root)); inversion Hb.
    split; [discriminate | intros H; now contradiction H].
  - rewrite length_map. split; [reflexivity|]. intros b Hb.
    destruct (abort w (rglob w root)); inversion Hb.
    split; [discriminate | reflexivity].
Qed.

Lemma result_matches_output_witness :
  List.length (stdout (snd (check Demo.tree Demo.root boot))) = 4 /\
  stdout (snd (check Demo.tree Demo.root boot)) <> [].
Proof.
  destruct (result_matches_output Demo.tree Demo.root) as [Hlen Hres].
  split; [exact Hlen|].
  apply (Hres true); reflexivity.
Defined.

(** X9: nothing is reported that was not found.  Every line a run
    prints is the header or the path of a yielded file that the run has
    opened and that is a violation: directories, ignored files and files
    that pass are never printed. *)
Theorem printed_lines_are_violations (w : World) (root : Path) (line : string) :
  In line (stdout (snd (check w root boot))) ->
  line = header \/
  exists p, In p (yielded (rglob w root)) /\
            In p (opened (snd (check w root boot))) /\
            Violation w p /\ line = path_str p.
Proof.
  pose proof (check_run w root) as Hrun. simpl in Hrun. rewrite Hrun. simpl.
  unfold report.
  destruct (filter (violates w) (visited w (rglob w root))) as [|v vs] eqn:E;
    [intros []|].
  rewrite <- E. intros [H|H]; [now left|]. right.
  apply in_map_iff in H as (p & <- & Hp).
  apply filter_In in Hp as [Hp Hv]. exists p.
  split; [now apply (visited_in_yielded w)|].
  split; [|split; [now apply violates_iff | reflexivity]].
  apply filter_In. split; [exact Hp|].
  unfold violates in Hv. now apply andb_true_iff in Hv.
Qed.

Lemma printed_lines_are_violations_witness :
  "/repo/b.py"%string = header \/
  exists p, In p (yielded (rglob Demo.tree Demo.root)) /\
            In p (opened (snd (check Demo.tree Demo.root boot))) /\
            Violation Demo.tree p /\ "/repo/b.py"%string = path_str p.
Proof.
  apply (printed_lines_are_violations Demo.tree Demo.root).
  simpl. auto.
Defined.

(** X10: nothing found is left out.  In a run in which the traversal
    ends normally and every checkable file can be read, the loop goes on
    after a violation: every yielded checkable file is opened and the
    path of every yielded violation is printed. *)
Theorem every_violation_reported (w : World) (root p : Path) :
  completes (rglob w root) ->
  (forall q e, In q (yielded (rglob w root)) -> ~ Unreadable w q e) ->
  In p (yielded (rglob w root)) ->
  (Checkable w p -> In p (opened (snd (check w root boot)))) /\
  (Violation w p -> In (path_str p) (stdout (snd (check w root boot)))).
Proof.
  intros Hc Hr Hp.
  pose proof (check_completes w root Hc Hr) as Hrun. simpl in Hrun.
  rewrite Hrun. simpl. split.
  - intros Hck. apply filter_In. split; [exact Hp | now apply checkable_iff].
  - intros Hv. apply violates_iff in Hv.
    assert (Hin : In p (filter (violates w) (yielded (rglob w root))))
      by (apply filter_In; auto).
    unfold report.
    destruct (filter (violates w) (yielded (rglob w root))) as [|v vs] eqn:E;
      [contradiction|].
    right. now apply in_map.
Qed.

Lemma every_violation_reported_witness :
  In Demo.d_py (opened (snd (check Demo.tree Demo.root boot))) /\
  In (path_str Demo.d_py) (stdout (snd (check Demo.tree Demo.root boot))).
Proof.
  destruct (every_violation_reported Demo.tree Demo.root Demo.d_py) as [Ho Hv].
  - reflexivity.
  - intros q e Hq Hu. apply raises_iff in Hu. simpl in Hq.
    repeat (destruct Hq as [<-|Hq]; [discriminate|]). contradiction.
  - simpl. auto 10.
  - split.
    + apply Ho. apply checkable_iff. reflexivity.
    + apply Hv. apply violates_iff. reflexivity.
Defined.

(** ** Short lines *)

Lemma string_length_append (a b : string) :
  String.length (a ++ b) = String.length a + String.length b.
Proof. induction a as [|c a IH]; simpl; [reflexivity | now rewrite IH]. Qed.

Lemma marker_needs_room (line : string) :
  contains_marker line -> String.length SPDX_IDENT <= String.length line.
Proof.
  intros (a & b & ->). rewrite !string_length_append. lia.
Qed.

(** X11: the marker has 25 characters, its final space included.  A
    checkable file whose line under test is shorter than that cannot
    hold it and is counted and printed. *)
Theorem short_line_is_violation
    (w : World) (p : Path) (st : state) (f : file) (t : string) :
  Checkable w p -> open_r w p = inr f -> tested f t ->
  String.length t < 25 ->
  check_body w p st = (Return tt, flag p st) /\ Violation w p.
Proof.
  intros Hc Ho Ht Hlen.
  assert (Hm : ~ contains_marker t).
  { intros H. apply marker_needs_room in H.
    change (String.length SPDX_IDENT) with 25 in H. lia. }
  split.
  - rewrite (check_body_tested w p st f t Hc Ho Ht).
    rewrite <- str_in_marker in Hm. now destruct (str_in SPDX_IDENT t).
  - split; [exact Hc|]. eauto.
Qed.

Lemma short_line_is_violation_witness :
  check_body Demo.tree Demo.b_py boot = (Return tt, flag Demo.b_py boot) /\
  Violation Demo.tree Demo.b_py.
Proof.
  apply (short_line_is_violation Demo.tree Demo.b_py boot
           (mkFile ("# no license here" ++ Demo.nl) None)
           ("# no license here" ++ Demo.nl)).
  - apply checkable_iff. reflexivity.
  - reflexivity.
  - apply read_first_line_iff. reflexivity.
  - simpl. lia.
Defined.
